(** * webpack-mock-imported-function: the module cache and the import shapes

    The repository is a bundler configuration ([webpack.config.js]) and a
    README that studies the code webpack generates for three ways of
    importing [utils.js]: the cache check at the top of
    [__webpack_require__], and the expression each import style leaves at
    its use site.

    Objects live in a heap and are named by their address, so that "the same
    object" is equality of addresses and a write through one holder is seen
    by every other holder. *)

From stdpp Require Import gmap strings list fin_maps.

Open Scope string_scope.
Open Scope nat_scope.

(** ** Values and the heap *)

(** A module identifier: the number webpack gives a module ([/* 3 */],
    [__webpack_require__(0)]). *)
Abbreviation mid := nat.

(** The address of a heap object. *)
Abbreviation loc := nat.

(** JavaScript values, as far as the README's modules need them. Array and
    object literals that are only returned as data are kept by value; an
    Exports Object is always a [VRef] into the heap. A function either
    returns a literal ([function fetchData() { return [...]; }]) or calls a
    member of an object it closes over
    ([function doSomething() { utils["fetchData"](); }]). *)
#[warnings="-register-all"]
Inductive value :=
  | VUndefined
  | VNum (n : Z)
  | VStr (s : string)
  | VArr (items : list value)
  | VObj (fields : list (string * value))
  | VRef (r : loc)
  | VFun (f : func)
with func :=
  | FConst (v : value)
  | FCallMember (r : loc) (name : string).

(** An object: property name to value. *)
Abbreviation object := (gmap string value).

(** The heap: the object at address [r] is the [r]-th entry. *)
Abbreviation heap_t := (list object).

(** [o[name]]: a missing property reads as [undefined]. *)
Definition get_prop (o : object) (name : string) : value :=
  default VUndefined (o !! name).

(** [r[name]] for a reference [r]; [None] only for an address that holds no
    object. *)
Definition member (h : heap_t) (r : loc) (name : string) : option value :=
  (fun o => get_prop o name) <$> h !! r.

(** [r[name] = v], in place. *)
Definition set_prop (h : heap_t) (r : loc) (name : string) (v : value) : heap_t :=
  alter (fun o : object => <[name := v]> o) r h.

(** [f()]. A call of a member looks the member up in the heap at the time of
    the call; calling something that is not a function is a TypeError
    ([None]), as is running out of [fuel]. *)
Fixpoint call (fuel : nat) (h : heap_t) (f : func) : option value :=
  match f with
  | FConst v => Some v
  | FCallMember r name =>
      match fuel with
      | 0 => None
      | S n =>
          match member h r name with
          | Some (VFun g) => call n h g
          | _ => None
          end
      end
  end.

(** ** The loader state *)

(** A module record. The README shows only [.exports]; the two other fields
    are the spec's [{ identifier, exports, initialized }]. *)
Record module_record := ModuleRecord {
  identifier : mid;
  exports : loc;
  initialized : bool
}.

(** [installedModules] is the cache of [__webpack_require__]; [heap] holds the
    Exports Objects; [executed] is a ghost log of the modules whose defining
    code has been started, oldest first. *)
Record state := State {
  installedModules : gmap mid module_record;
  heap : heap_t;
  executed : list mid
}.

Definition init_state : state := State ∅ [] [].

Inductive error :=
  | ModuleInitializationError (id : mid)
  | MissingDefaultExportError (id : mid).

(** The outcome of running loader code: a result, a raised error (the state
    reached is kept: nothing is rolled back), or not enough fuel. *)
Inductive outcome (A : Type) :=
  | Ok (a : A) (s : state)
  | Raise (e : error) (s : state)
  | OutOfFuel.
Arguments Ok {A} a s.
Arguments Raise {A} e s.
Arguments OutOfFuel {A}.

Definition bind {A B} (m : outcome A) (k : A → state → outcome B) : outcome B :=
  match m with
  | Ok a s => k a s
  | Raise e s => Raise e s
  | OutOfFuel => OutOfFuel
  end.

(** ** Module defining code *)

(** The expressions of a module function's body. *)
Inductive expr :=
  | EVal (v : value)
  | EVar (x : string)
  | EMember (x name : string)
  | EFunCallMember (x name : string).

(** The statements of a module function, as in the README's listing of
    module 3: [var x = __webpack_require__(dep)], an assignment to a property
    of [__webpack_exports__], or a [throw]. *)
Inductive stmt :=
  | SImport (x : string) (dep : mid)
  | SExport (name : string) (e : expr)
  | SThrow.

Abbreviation env_t := (gmap string value).

(** Evaluation of an expression in the module's scope. An unbound variable
    or a member of something that is not an object makes the defining code
    fail ([None]). *)
Definition eval (env : env_t) (h : heap_t) (e : expr) : option value :=
  match e with
  | EVal v => Some v
  | EVar x => env !! x
  | EMember x name =>
      match env !! x with
      | Some (VRef r) => member h r name
      | _ => None
      end
  | EFunCallMember x name =>
      match env !! x with
      | Some (VRef r) => Some (VFun (FCallMember r name))
      | _ => None
      end
  end.

Definition set_heap (s : state) (h : heap_t) : state :=
  State (installedModules s) h (executed s).

Section Loader.

(** The bundle's table of module functions ([modules] in webpack's
    bootstrap). *)
Variable modules : gmap mid (list stmt).

(** Runs the statements of module [me], whose Exports Object is [self];
    [req] is the [__webpack_require__] handed to the module function. *)
Fixpoint exec_stmts (req : mid → state → outcome loc) (me : mid) (self : loc)
    (body : list stmt) (env : env_t) (s : state) : outcome unit :=
  match body with
  | [] => Ok tt s
  | SImport x dep :: rest =>
      bind (req dep s) (fun r s' =>
        exec_stmts req me self rest (<[x := VRef r]> env) s')
  | SExport name e :: rest =>
      match eval env (heap s) e with
      | Some v =>
          exec_stmts req me self rest env
            (set_heap s (set_prop (heap s) self name v))
      | None => Raise (ModuleInitializationError me) s
      end
  | SThrow :: _ => Raise (ModuleInitializationError me) s
  end.

(** Step 2 of the loader: the record of [id], with a new empty Exports
    Object at the next free address, is put into the registry. *)
Definition install (id : mid) (s : state) : state :=
  State (<[id := ModuleRecord id (length (heap s)) false]> (installedModules s))
        (heap s ++ [∅])
        (executed s).

Definition mark_executed (id : mid) (s : state) : state :=
  State (installedModules s) (heap s) (executed s ++ [id]).

(** Step 4 of the loader: [initialized: true]. *)
Definition mark_initialized (id : mid) (s : state) : state :=
  State (alter (fun m => ModuleRecord (identifier m) (exports m) true) id
           (installedModules s))
        (heap s) (executed s).

(** Modelled from the spec: the part of [__webpack_require__] after the
    comment [// Create a new module (and put it into the cache)], which the
    README cuts off. Section 4.2, steps 2 to 4: create an empty Exports
    Object and the record [{id, exports, initialized:false}] and insert it
    into the registry; execute the defining code with [exports] and the
    ability to call [require]; mark [initialized:true] and return
    [exports]. A failure of the defining code is signalled as
    [ModuleInitializationError] and the record stays. An identifier with
    no defining code fails in step 3, after the insertion of step 2. *)
Definition load_module (req : mid → state → outcome loc) (id : mid)
    (s : state) : outcome loc :=
  let r := length (heap s) in
  let s1 := install id s in
  match modules !! id with
  | None => Raise (ModuleInitializationError id) s1
  | Some body =>
      bind (exec_stmts req id r body ∅ (mark_executed id s1)) (fun _ s2 =>
        Ok r (mark_initialized id s2))
  end.

(** [function __webpack_require__(moduleId)]: the cache check of the
    README, then the creation of the module. A cache hit needs no fuel;
    [fuel] bounds the nesting of module creations. *)
Fixpoint __webpack_require__ (fuel : nat) (moduleId : mid) (s : state)
    : outcome loc :=
  match installedModules s !! moduleId with
  | Some m => Ok (exports m) s
  | None =>
      match fuel with
      | 0 => OutOfFuel
      | S n => load_module (__webpack_require__ n) moduleId s
      end
  end.

End Loader.

(** ** The import shapes of the README *)

(** The key under which the default export is read at a use site:
    [...["a" /* default */]]. *)
Definition default_key : string := "a".

Inductive import_style :=
  | WholeNamespace
  | NamedProperty (name : string)
  | DefaultProperty.

(** What a use site evaluates to, given the reference [r] that the import
    statement [var ... = __webpack_require__(id)] bound:
    - whole module: [console.log(__WEBPACK_IMPORTED_MODULE_1__utils__, ...)],
      the object itself;
    - function only: [__WEBPACK_IMPORTED_MODULE_1__utils__["fetchData"]];
    - default module: [...["a" /* default */]].
    The two property reads are evaluated where the use site stands, on the
    heap of that moment. *)
Definition use_site (style : import_style) (h : heap_t) (r : loc) : option value :=
  match style with
  | WholeNamespace => Some (VRef r)
  | NamedProperty name => member h r name
  | DefaultProperty => member h r default_key
  end.

(** ** The two modules of the README *)

Definition tom_and_mary : value :=
  VArr [VObj [("name", VStr "Tom")]; VObj [("name", VStr "Mary")]].

(** [utils.js], module 0:
    [export function fetchData() { return [{ name: 'Tom'}, { name: 'Mary' }]; }] *)
Definition utils_js : list stmt :=
  [SExport "fetchData" (EVal (VFun (FConst tom_and_mary)))].

(** [app.js], module 1: it imports [./utils] and exports [doSomething],
    whose body is the call [fetchData()], generated as a call of the member
    ["fetchData"] of the imported module object. What [doSomething] gets
    from that call is what a call of [doSomething] yields here. *)
Definition app_js : list stmt :=
  [SImport "__WEBPACK_IMPORTED_MODULE_0__utils__" 0;
   SExport "doSomething"
     (EFunCallMember "__WEBPACK_IMPORTED_MODULE_0__utils__" "fetchData")].

Definition readme_modules : gmap mid (list stmt) :=
  <[1 := app_js]> (<[0 := utils_js]> ∅).

(** Calls the function stored under [name] in the object at [r]. *)
Definition call_member (fuel : nat) (h : heap_t) (r : loc) (name : string)
    : option value :=
  call fuel h (FCallMember r name).

(** ** The bundler configuration *)

Section Config.

(** Node's [path.resolve] and [__dirname]. *)
Variable path_resolve : string → string → string.
Variable __dirname : string.

Definition entry_names : list string :=
  ["import_function"; "import_default_module"; "import_whole_module"].

(** [entry]: the [reduce] of webpack.config.js, from the empty object. *)
Definition entry : gmap string string :=
  fold_left
    (fun accu module =>
       <[module := path_resolve __dirname ("./test/" ++ module ++ ".js")]> accu)
    entry_names ∅.

End Config.

(** ** The test harness *)

(** Fuel that always suffices: every nested creation of a module that has
    defining code puts one more identifier of [modules] into the registry. *)
Definition enough_fuel (modules : gmap mid (list stmt)) : nat :=
  S (size modules).

(** [require(id)] as a consumer calls it. *)
Definition require (modules : gmap mid (list stmt)) (id : mid) (s : state)
    : outcome loc :=
  __webpack_require__ modules (enough_fuel modules) id s.

(** The modules of [modules] that are not in the registry yet. *)
Definition pending (modules : gmap mid (list stmt)) (s : state) : nat :=
  size (dom modules ∖ dom (installedModules s)).

(** The state an outcome leaves behind; an error leaves the state it was
    raised in. *)
Definition state_after {A} (o : outcome A) (s0 : state) : state :=
  match o with
  | Ok _ s => s
  | Raise _ s => s
  | OutOfFuel => s0
  end.

(** What a consumer of the loader can do: request a module, or write a
    property of an object it holds a reference to (mocking). *)
Inductive op :=
  | OpRequire (id : mid)
  | OpSet (r : loc) (name : string) (v : value).

Definition run_op (modules : gmap mid (list stmt)) (o : op) (s : state) : state :=
  match o with
  | OpRequire id => state_after (require modules id s) s
  | OpSet r name v => set_heap s (set_prop (heap s) r name v)
  end.

Fixpoint run_ops (modules : gmap mid (list stmt)) (ops : list op) (s : state)
    : state :=
  match ops with
  | [] => s
  | o :: rest => run_ops modules rest (run_op modules o s)
  end.

(** An importer: the import statement followed by one use site. *)
Definition import_and_use (modules : gmap mid (list stmt)) (style : import_style)
    (id : mid) (s : state) : option value :=
  match require modules id s with
  | Ok r s' => use_site style (heap s') r
  | _ => None
  end.

(** Every record of the registry points to an object of the heap. *)
Definition wf_state (s : state) : Prop :=
  ∀ id m, installedModules s !! id = Some m → exports m < length (heap s).

(** The log lists no module twice, and only modules that have a record. *)
Definition log_ok (s : state) : Prop :=
  NoDup (executed s) ∧ ∀ id, id ∈ executed s → is_Some (installedModules s !! id).

(** [s'] is [s] later on: the records of [s] are still there, unchanged, the
    heap has not shrunk and the log has only grown at its end. *)
Definition extends (s s' : state) : Prop :=
  (∀ id m, installedModules s !! id = Some m → installedModules s' !! id = Some m)
  ∧ length (heap s) ≤ length (heap s')
  ∧ executed s `prefix_of` executed s'.

(** An error names a module that had no record before the call and has a
    record that is not initialized after it. *)
Definition in_progress_after (s s' : state) (e : error) : Prop :=
  ∃ failing r, e = ModuleInitializationError failing
    ∧ installedModules s !! failing = None
    ∧ installedModules s' !! failing = Some (ModuleRecord failing r false).

(** A property of the state an outcome leaves, if it leaves one. *)
Definition on_out {A} (o : outcome A) (P : state → Prop) : Prop :=
  match o with
  | Ok _ s => P s
  | Raise _ s => P s
  | OutOfFuel => True
  end.

(** The DefaultProperty resolution in the spec's words (section 4.3 and its
    edge case policy): [exports["default"]] if the module has a
    default-marked export, [MissingDefaultExportError] otherwise. Kept to be
    compared with [use_site DefaultProperty]. *)
Definition spec_default_property (id : mid) (h : heap_t) (r : loc)
    : option (error + value) :=
  (fun o : object =>
     match o !! default_key with
     | Some v => inr v
     | None => inl (MissingDefaultExportError id)
     end) <$> h !! r.

(** The NamedProperty binding in the spec's words (section 4.3, "value
    capture"): the value read when the import statement executes, on the
    heap [h_import] of that moment, whatever the heap is at the use. Kept to
    be compared with [use_site (NamedProperty name)]. *)
Definition spec_named_capture (name : string) (h_import h_use : heap_t) (r : loc)
    : option value :=
  member h_import r name.

(** ** Example bundles *)

(** The stub of the mocking scenario: [() => []]. *)
Definition stub_empty : value := VFun (FConst (VArr [])).

(** A cycle: module 0 exports [early], requires module 1, then exports
    [late]; module 1 requires module 0 during its own initialization and
    exports the object it got and what it could read from it. *)
Definition cyclic_modules : gmap mid (list stmt) :=
  <[0 := [SExport "early" (EVal (VNum 1));
          SImport "b" 1;
          SExport "late" (EVal (VNum 2))]]>
  (<[1 := [SImport "a" 0;
           SExport "a_ns" (EVar "a");
           SExport "saw_early" (EMember "a" "early");
           SExport "saw_late" (EMember "a" "late")]]> ∅).

(** A module whose defining code fails half way, and an importer of it. *)
Definition failing_modules : gmap mid (list stmt) :=
  <[0 := [SExport "before" (EVal (VNum 1)); SThrow;
          SExport "after" (EVal (VNum 2))]]>
  (<[1 := [SImport "m" 0; SExport "ok" (EVal (VNum 3))]]> ∅).

(** A module with a default-marked export. *)
Definition default_modules : gmap mid (list stmt) :=
  <[4 := [SExport default_key (EVal (VFun (FConst tom_and_mary)))]]> ∅.

(** The Exports Objects of [utils.js] and [app.js] once their module
    functions have run, and the state of the README's bundle after the test
    file has imported [./utils] and then [./app]. *)
Definition utils_exports : object :=
  <["fetchData" := VFun (FConst tom_and_mary)]> ∅.

Definition app_exports : object :=
  <["doSomething" := VFun (FCallMember 0 "fetchData")]> ∅.

Definition bundle_loaded : state :=
  State (<[1 := ModuleRecord 1 1 true]> (<[0 := ModuleRecord 0 0 true]> ∅))
        [utils_exports; app_exports]
        [0; 1].

(** The test of the README's "Solution", on the bundle of [app.js] and
    [utils.js] in state [s]: the test imports the whole module [./utils] and
    [./app], puts [stub] (if any) in the place of [fetchData] on the module
    object, and calls [doSomething]. *)
Definition mocking_test (s : state) (stub : option value) : option value :=
  match require readme_modules 0 s with
  | Ok utils s1 =>
      match require readme_modules 1 s1 with
      | Ok app s2 =>
          let s3 :=
            match stub with
            | Some v => run_op readme_modules (OpSet utils "fetchData" v) s2
            | None => s2
            end in
          call_member 2 (heap s3) app "doSomething"
      | _ => None
      end
  | _ => None
  end.

(** The states the example bundles are left in by a first request. *)
Definition utils_loaded : state :=
  state_after (require readme_modules 0 init_state) init_state.

Definition failed_state : state :=
  state_after (require failing_modules 0 init_state) init_state.

Definition cyclic_loaded : state :=
  state_after (require cyclic_modules 0 init_state) init_state.

Definition default_loaded : state :=
  state_after (require default_modules 4 init_state) init_state.

(** ** The reduce of the configuration, step by step *)

Section ConfigReduce.

Variable path_resolve : string → string → string.
Variable __dirname : string.

(** The callback of the [reduce]:
    [(accu, module) => { accu[module] = path.resolve(...); return accu; }].
    The map holds the own properties of [accu], a plain object. The
    assignment creates or overwrites the own property [module], except for
    the name [__proto__]: that assignment goes to the prototype setter, which
    ignores a string, and [accu] gets no property. *)
Definition entry_callback (accu : gmap string string) (module : string)
    : gmap string string :=
  if decide (module = "__proto__") then accu
  else <[module := path_resolve __dirname ("./test/" ++ module ++ ".js")]> accu.

(** [names.reduce(callback, init)]. *)
Definition entry_reduce (names : list string) (init : gmap string string)
    : gmap string string :=
  fold_left entry_callback names init.

End ConfigReduce.

(** The property a use site reads, if it reads one. *)
Definition style_key (style : import_style) : option string :=
  match style with
  | WholeNamespace => None
  | NamedProperty name => Some name
  | DefaultProperty => Some default_key
  end.

(** ** Module code that assigns [module.exports] *)

(** The module function receives the record itself as [module]
    ([function(module, __webpack_exports__, __webpack_require__)]), and the
    README's "Limitation" has a module that assigns to it:
    [module.exports = function notDefaultNorNamed() {}]. A statement of such
    code is a statement as before, or an assignment of a new object (an
    object literal, or a function, which is an object of its own) with the
    own properties [o] to [module.exports]. *)
Inductive cjs_stmt :=
  | CStmt (st : stmt)
  | CModuleExports (o : object).

Definition is_module_exports (st : cjs_stmt) : bool :=
  match st with
  | CStmt _ => false
  | CModuleExports _ => true
  end.

(** Does the code of [id] assign [module.exports]? *)
Definition assigns_module_exports (cmodules : gmap mid (list cjs_stmt))
    (id : mid) : bool :=
  match cmodules !! id with
  | Some body => existsb is_module_exports body
  | None => false
  end.

(** The answers given to requests, oldest first: which identifier was
    requested and which reference was returned, whoever asked. *)
Abbreviation answers := (list (mid * loc)).

(** An outcome together with the answers given on the way to it. *)
Abbreviation traced A := (outcome A * answers)%type.

Definition bind_traced {A B} (m : traced A) (k : A → state → traced B)
    : traced B :=
  match m with
  | (Ok a s, tr) => let (o, tr') := k a s in (o, (tr ++ tr')%list)
  | (Raise e s, tr) => (Raise e s, tr)
  | (OutOfFuel, tr) => (OutOfFuel, tr)
  end.

(** [module.exports = o] in the code of module [me]: the new object is put
    at the next free address and the record of [me] points to it from then
    on. The object the record pointed to before stays in the heap, and
    [__webpack_exports__] of the running module function still names it. *)
Definition reassign_exports (me : mid) (o : object) (s : state) : state :=
  State (alter (fun m => ModuleRecord (identifier m) (length (heap s))
                           (initialized m)) me (installedModules s))
        (heap s ++ [o])
        (executed s).

(** [exec_stmts] for such code, with the answers of the requests made. *)
Fixpoint cjs_exec (req : mid → state → traced loc) (me : mid) (self : loc)
    (body : list cjs_stmt) (env : env_t) (s : state) : traced unit :=
  match body with
  | [] => (Ok tt s, [])
  | CStmt (SImport x dep) :: rest =>
      bind_traced (req dep s) (fun r s' =>
        cjs_exec req me self rest (<[x := VRef r]> env) s')
  | CStmt (SExport name e) :: rest =>
      match eval env (heap s) e with
      | Some v =>
          cjs_exec req me self rest env
            (set_heap s (set_prop (heap s) self name v))
      | None => (Raise (ModuleInitializationError me) s, [])
      end
  | CStmt SThrow :: _ => (Raise (ModuleInitializationError me) s, [])
  | CModuleExports o :: rest =>
      cjs_exec req me self rest env (reassign_exports me o s)
  end.

(** Modelled from the spec: the creation of a module as in [load_module]
    (section 4.2, steps 2 to 4), for code that may assign [module.exports].
    What is returned is what the record of the module holds when its code
    is done, the [.exports] that the cache check returns from then on. *)
Definition cjs_load (cmodules : gmap mid (list cjs_stmt))
    (req : mid → state → traced loc) (id : mid) (s : state) : traced loc :=
  match cmodules !! id with
  | None => (Raise (ModuleInitializationError id) (install id s), [])
  | Some body =>
      bind_traced
        (cjs_exec req id (length (heap s)) body ∅
           (mark_executed id (install id s)))
        (fun _ s2 =>
           (Ok (default (length (heap s))
                  (exports <$> installedModules s2 !! id))
               (mark_initialized id s2), []))
  end.

(** Adds the answer of a request that returned to the answers. *)
Definition answer (id : mid) (m : traced loc) : traced loc :=
  match m with
  | (Ok r s, tr) => (Ok r s, (tr ++ [(id, r)])%list)
  | other => other
  end.

(** [__webpack_require__] on such a bundle: the cache check of the README,
    then the creation of the module; every request that returns, at any
    depth, has its answer recorded. *)
Fixpoint cjs_require (cmodules : gmap mid (list cjs_stmt)) (fuel : nat)
    (moduleId : mid) (s : state) : traced loc :=
  match installedModules s !! moduleId with
  | Some m => (Ok (exports m) s, [(moduleId, exports m)])
  | None =>
      match fuel with
      | 0 => (OutOfFuel, [])
      | S n => answer moduleId
                 (cjs_load cmodules (cjs_require cmodules n) moduleId s)
      end
  end.

(** A consumer operation on such a bundle, on the state and the answers
    given so far. *)
Definition cjs_run_op (cmodules : gmap mid (list cjs_stmt)) (o : op)
    (st : state * answers) : state * answers :=
  match o with
  | OpRequire id =>
      let (out, tr) := cjs_require cmodules (S (size cmodules)) id st.1 in
      (state_after out st.1, (st.2 ++ tr)%list)
  | OpSet r name v => (set_heap st.1 (set_prop (heap st.1) r name v), st.2)
  end.

Fixpoint cjs_run_ops (cmodules : gmap mid (list cjs_stmt)) (ops : list op)
    (st : state * answers) : state * answers :=
  match ops with
  | [] => st
  | o :: rest => cjs_run_ops cmodules rest (cjs_run_op cmodules o st)
  end.

(** A bundle without such assignments, as a bundle that may have them. *)
Definition lift_modules (modules : gmap mid (list stmt))
    : gmap mid (list cjs_stmt) :=
  (fun body : list stmt => CStmt <$> body) <$> modules.

(** The answers for [X] agree with the state: with a record for [X], every
    answer for [X] is the object of that record; without one, no answer for
    [X] has been given. *)
Definition answers_agree (X : mid) (s : state) (tr : answers) : Prop :=
  match installedModules s !! X with
  | Some m => ∀ r, (X, r) ∈ tr → r = exports m
  | None => ∀ r, (X, r) ∉ tr
  end.

(** The modules of such a bundle that are not in the registry yet. *)
Definition cjs_pending (cmodules : gmap mid (list cjs_stmt)) (s : state) : nat :=
  size (dom cmodules ∖ dom (installedModules s)).

(** No record is lost from [s] to [s']. *)
Definition keeps_records (s s' : state) : Prop :=
  ∀ y, is_Some (installedModules s !! y) → is_Some (installedModules s' !! y).

(** What a traced run from state [s], after the answers [T], leaves: the
    answers for [X], old and new, agree with the state reached, and no record
    is lost. *)
Definition cjs_post {A} (X : mid) (s : state) (T : answers) (res : traced A)
    : Prop :=
  on_out res.1 (fun s' => answers_agree X s' (T ++ res.2) ∧ keeps_records s s').

(** A cycle in which module 0 assigns [module.exports] after module 1 has
    imported it: module 1 keeps the first object of module 0. *)
Definition reassigning_modules : gmap mid (list cjs_stmt) :=
  <[0 := [CStmt (SExport "early" (EVal (VNum 1)));
          CStmt (SImport "b" 1);
          CModuleExports ∅]]>
  (<[1 := [CStmt (SImport "a" 0);
           CStmt (SExport "a_ns" (EVar "a"))]]> ∅).

(** * Properties *)

(** ** Heap reads and writes *)

Lemma member_set_prop_eq (h : heap_t) (r : loc) (name : string) (v : value) :
  is_Some (h !! r) → member (set_prop h r name v) r name = Some v.
Proof.
  intros [o Ho]. unfold member, set_prop.
  rewrite list_lookup_alter_eq, Ho. simpl.
  unfold get_prop. by rewrite lookup_insert_eq.
Qed.

Lemma member_set_prop_other_name (h : heap_t) (r : loc) (name name' : string)
    (v : value) :
  name ≠ name' → member (set_prop h r name v) r name' = member h r name'.
Proof.
  intros Hne. unfold member, set_prop.
  rewrite list_lookup_alter_eq. destruct (h !! r) as [o|]; simpl; [|done].
  unfold get_prop. by rewrite lookup_insert_ne.
Qed.

Lemma member_set_prop_other_object (h : heap_t) (r r' : loc) (name name' : string)
    (v : value) :
  r ≠ r' → member (set_prop h r name v) r' name' = member h r' name'.
Proof.
  intros Hne. unfold member, set_prop. by rewrite list_lookup_alter_ne.
Qed.

Lemma length_set_prop (h : heap_t) (r : loc) (name : string) (v : value) :
  length (set_prop h r name v) = length h.
Proof. unfold set_prop. apply length_alter. Qed.

(** ** The cache check *)

Section LoaderFacts.

Variable modules : gmap mid (list stmt).

Abbreviation req := (__webpack_require__ modules).

Lemma require_hit (fuel : nat) (id : mid) (s : state) (m : module_record) :
  installedModules s !! id = Some m → req fuel id s = Ok (exports m) s.
Proof. intros H. destruct fuel; simpl; by rewrite H. Qed.

Lemma require_miss (fuel : nat) (id : mid) (s : state) :
  installedModules s !! id = None →
  req (S fuel) id s = load_module modules (req fuel) id s.
Proof. intros H. simpl. by rewrite H. Qed.

(** *** An invariant rule for the loader

    A property of the state that survives the three writes of the loader
    (the insertion of a record for an identifier that has none, a write
    to a property, and the final [initialized: true] of a module that was
    created since) holds after every [__webpack_require__] that it held
    before. *)
Section Invariant.

Variable I : state → Prop.
Hypothesis I_install : ∀ id s,
  I s → installedModules s !! id = None → I (install id s).
Hypothesis I_start : ∀ id s,
  I s → installedModules s !! id = None →
  I (mark_executed id (install id s)).
Hypothesis I_set : ∀ s r name v,
  I s → I (set_heap s (set_prop (heap s) r name v)).
Hypothesis I_done : ∀ id s s',
  I s → installedModules s !! id = None → I s' →
  I (mark_initialized id s').

Lemma exec_stmts_invariant (rq : mid → state → outcome loc) me self :
  (∀ id s, I s → on_out (rq id s) I) →
  ∀ body env s, I s → on_out (exec_stmts rq me self body env s) I.
Proof.
  intros Hrq body. induction body as [|st rest IH]; intros env s Hs.
  - done.
  - destruct st as [x dep|name e|]; simpl.
    + specialize (Hrq dep s Hs). destruct (rq dep s) as [r s'| |]; simpl in *;
        [by apply IH|done|done].
    + destruct (eval env (heap s) e); simpl; [|done].
      apply IH. by apply I_set.
    + done.
Qed.

Lemma require_invariant fuel :
  ∀ id s, I s → on_out (req fuel id s) I.
Proof.
  induction fuel as [|n IH]; intros id s Hs.
  - simpl. by destruct (installedModules s !! id).
  - destruct (installedModules s !! id) as [m|] eqn:Hid.
    + by rewrite (require_hit _ _ _ _ Hid).
    + rewrite (require_miss _ _ _ Hid). unfold load_module.
      destruct (modules !! id) as [body|]; simpl; [|by apply I_install].
      pose proof (exec_stmts_invariant (req n) id (length (heap s)) IH body ∅
                    _ (I_start id s Hs Hid)) as Hex.
      destruct (exec_stmts _ _ _ _ _ _) as [[] s2| |]; simpl in *;
        [by apply (I_done id s s2)|done|done].
Qed.

End Invariant.

(** *** Later states *)

Lemma extends_refl (s : state) : extends s s.
Proof. by repeat split. Qed.

Lemma extends_trans (s1 s2 s3 : state) :
  extends s1 s2 → extends s2 s3 → extends s1 s3.
Proof.
  intros (Ha & Hb & Hc) (Ha' & Hb' & Hc'). repeat split.
  - intros id m H. by apply Ha', Ha.
  - lia.
  - by etrans.
Qed.

Lemma extends_install (id : mid) (s : state) :
  installedModules s !! id = None → extends s (install id s).
Proof.
  intros Hid. repeat split; simpl.
  - intros x m Hx. rewrite lookup_insert_ne; [done|congruence].
  - rewrite length_app. lia.
  - done.
Qed.

Lemma extends_mark_executed (id : mid) (s : state) :
  extends s (mark_executed id s).
Proof. repeat split; simpl; [done|done|by apply prefix_app_r]. Qed.

Lemma extends_set_heap (s : state) r name v :
  extends s (set_heap s (set_prop (heap s) r name v)).
Proof. repeat split; simpl; [done|by rewrite length_set_prop|done]. Qed.

Lemma extends_mark_initialized (id : mid) (s0 s : state) :
  installedModules s0 !! id = None → extends s0 s →
  extends s0 (mark_initialized id s).
Proof.
  intros Hid (Ha & Hb & Hc). repeat split; simpl; [|done|done].
  intros x m Hx. rewrite lookup_alter_ne; [by apply Ha|congruence].
Qed.

Lemma extends_lookup_None (s s' : state) (id : mid) :
  extends s s' → installedModules s' !! id = None →
  installedModules s !! id = None.
Proof.
  intros (Ha & _) Hn. destruct (installedModules s !! id) as [m|] eqn:E; [|done].
  apply Ha in E. congruence.
Qed.

(** Whatever [__webpack_require__] does, the records that were in the
    registry stay, unchanged. *)
Lemma require_extends (fuel : nat) (id : mid) (s : state) :
  on_out (req fuel id s) (extends s).
Proof.
  apply (require_invariant (extends s)); [| | | |apply extends_refl].
  - intros x t Ht Hx. eapply extends_trans; [done|by apply extends_install].
  - intros x t Ht Hx. eapply extends_trans; [done|].
    eapply extends_trans; [by apply extends_install|apply extends_mark_executed].
  - intros t r name v Ht. eapply extends_trans; [done|apply extends_set_heap].
  - intros x t t' Ht Hx Ht'. apply extends_mark_initialized; [|done].
    by apply (extends_lookup_None s t).
Qed.

Lemma exec_stmts_extends (fuel : nat) me self body env (s : state) :
  on_out (exec_stmts (req fuel) me self body env s) (extends s).
Proof.
  apply (exec_stmts_invariant (extends s)); [| |apply extends_refl].
  - intros t r name v Ht. eapply extends_trans; [done|apply extends_set_heap].
  - intros x t Ht. pose proof (require_extends fuel x t) as H.
    destruct (req fuel x t); simpl in *; [| |done]; by eapply extends_trans.
Qed.

(** *** Records point into the heap *)

Lemma require_wf (fuel : nat) (id : mid) (s : state) :
  wf_state s → on_out (req fuel id s) wf_state.
Proof.
  apply (require_invariant wf_state).
  - intros x t Ht Hx y m. simpl. rewrite length_app. simpl.
    destruct (decide (x = y)) as [->|Hne].
    + rewrite lookup_insert_eq. intros [= <-]. simpl. lia.
    + rewrite lookup_insert_ne by done. intros Hy. apply Ht in Hy. lia.
  - intros x t Ht Hx y m. simpl. rewrite length_app. simpl.
    destruct (decide (x = y)) as [->|Hne].
    + rewrite lookup_insert_eq. intros [= <-]. simpl. lia.
    + rewrite lookup_insert_ne by done. intros Hy. apply Ht in Hy. lia.
  - intros t r name v Ht y m. simpl. rewrite length_set_prop. apply Ht.
  - intros x t t' _ _ Ht' y m. simpl.
    destruct (decide (x = y)) as [->|Hne].
    + rewrite lookup_alter_eq. destruct (installedModules t' !! y) as [m'|] eqn:E;
        simpl; [|done]. intros [= <-]. simpl. by apply (Ht' y).
    + rewrite lookup_alter_ne by done. apply Ht'.
Qed.

(** *** The log *)

Lemma require_log_ok (fuel : nat) (id : mid) (s : state) :
  log_ok s → on_out (req fuel id s) log_ok.
Proof.
  apply (require_invariant log_ok).
  - intros x t [Hnd Hin] Hx. split; simpl; [done|].
    intros y Hy. destruct (decide (x = y)) as [->|Hne].
    + rewrite lookup_insert_eq. eauto.
    + rewrite lookup_insert_ne by done. by apply Hin.
  - intros x t [Hnd Hin] Hx. split; simpl.
    + apply NoDup_app. split; [done|]. split; [|apply NoDup_singleton].
      intros y Hy Hy'. apply list_elem_of_singleton in Hy' as ->.
      apply Hin in Hy as [m Hm]. congruence.
    + intros y Hy. destruct (decide (x = y)) as [->|Hne].
      * rewrite lookup_insert_eq. eauto.
      * rewrite lookup_insert_ne by done. apply Hin.
        apply elem_of_app in Hy as [Hy|Hy]; [done|].
        apply list_elem_of_singleton in Hy. congruence.
  - intros t r name v Ht. exact Ht.
  - intros x t t' _ _ [Hnd Hin]. split; simpl; [done|].
    intros y Hy. rewrite lookup_alter. apply Hin in Hy as [m Hm].
    case_decide; subst; rewrite Hm; simpl; eauto.
Qed.

(** *** Termination *)

Lemma pending_extends (s s' : state) :
  extends s s' → pending modules s' ≤ pending modules s.
Proof.
  intros (Ha & _). unfold pending. apply subseteq_size.
  intros x. rewrite !elem_of_difference, !elem_of_dom.
  intros [Hx Hn]. split; [done|]. intros [m Hm]. apply Hn. eauto.
Qed.

Lemma pending_install (id : mid) (s : state) :
  installedModules s !! id = None → is_Some (modules !! id) →
  pending modules (install id s) < pending modules s.
Proof.
  intros Hid Hm. unfold pending. apply subset_size. simpl.
  rewrite dom_insert_L. apply elem_of_dom in Hm.
  apply not_elem_of_dom in Hid.
  split.
  - intros x. rewrite !elem_of_difference, elem_of_union, elem_of_singleton.
    intros [Hx Hn]. split; [done|]. intros Hd. apply Hn. by right.
  - intros Hsub. specialize (Hsub id).
    rewrite !elem_of_difference, elem_of_union, elem_of_singleton in Hsub.
    destruct Hsub as [_ Hn]; [done|]. apply Hn. by left.
Qed.

Lemma pending_le_size (s : state) : pending modules s ≤ size modules.
Proof.
  unfold pending. rewrite <- (size_dom (D := gset mid) modules).
  apply subseteq_size. intros x. rewrite elem_of_difference. by intros [Hx _].
Qed.

Lemma exec_stmts_terminates (rq : mid → state → outcome loc) (n : nat) me self :
  (∀ id s, pending modules s < n → rq id s ≠ OutOfFuel) →
  (∀ id s, on_out (rq id s) (extends s)) →
  ∀ body env s, pending modules s < n →
    exec_stmts rq me self body env s ≠ OutOfFuel.
Proof.
  intros Hrq Hext body. induction body as [|st rest IH]; intros env s Hs.
  - done.
  - destruct st as [x dep|name e|]; simpl.
    + specialize (Hrq dep s Hs). specialize (Hext dep s).
      destruct (rq dep s) as [r s'| |]; simpl in *; [|done|done].
      apply IH. apply pending_extends in Hext. lia.
    + destruct (eval env (heap s) e); [|done]. by apply IH.
    + done.
Qed.

Lemma require_terminates_aux (fuel : nat) :
  ∀ id s, pending modules s < fuel → req fuel id s ≠ OutOfFuel.
Proof.
  induction fuel as [|n IH]; intros id s Hs; [lia|].
  destruct (installedModules s !! id) as [m|] eqn:Hid.
  - by rewrite (require_hit _ _ _ _ Hid).
  - rewrite (require_miss _ _ _ Hid). unfold load_module.
    destruct (modules !! id) as [body|] eqn:Hb; [|done].
    assert (pending modules (mark_executed id (install id s)) < n) as Hlt.
    { pose proof (pending_install id s Hid (mk_is_Some _ _ Hb)) as Hp.
      unfold pending in *. simpl in *. lia. }
    pose proof (exec_stmts_terminates (req n) n id (length (heap s)) IH
                  (require_extends n) body ∅ _ Hlt) as Hex.
    by destruct (exec_stmts _ _ _ _ _ _) as [[] s2| |].
Qed.

Lemma require_terminates (id : mid) (s : state) :
  require modules id s ≠ OutOfFuel.
Proof.
  apply require_terminates_aux. unfold enough_fuel.
  pose proof (pending_le_size s). lia.
Qed.

(** More fuel does not change a result. *)
Lemma exec_stmts_fuel (rq1 rq2 : mid → state → outcome loc) me self :
  (∀ id s, rq1 id s ≠ OutOfFuel → rq2 id s = rq1 id s) →
  ∀ body env s, exec_stmts rq1 me self body env s ≠ OutOfFuel →
    exec_stmts rq2 me self body env s = exec_stmts rq1 me self body env s.
Proof.
  intros Hrq body. induction body as [|st rest IH]; intros env s Hs.
  - done.
  - destruct st as [x dep|name e|]; simpl in *.
    + destruct (rq1 dep s) as [r s'| |] eqn:E; simpl in *; [| |done].
      * rewrite (Hrq dep s) by (by rewrite E). rewrite E. simpl. by apply IH.
      * rewrite (Hrq dep s) by (by rewrite E). by rewrite E.
    + destruct (eval env (heap s) e); [|done]. by apply IH.
    + done.
Qed.

Lemma require_fuel (n : nat) :
  ∀ k id s, n ≤ k → req n id s ≠ OutOfFuel → req k id s = req n id s.
Proof.
  induction n as [|n IH]; intros k id s Hk Hs.
  - destruct (installedModules s !! id) as [m|] eqn:Hid.
    + by rewrite !(require_hit _ _ _ _ Hid).
    + simpl in Hs. by rewrite Hid in Hs.
  - destruct k as [|k]; [lia|].
    destruct (installedModules s !! id) as [m|] eqn:Hid.
    + by rewrite !(require_hit _ _ _ _ Hid).
    + rewrite !(require_miss _ _ _ Hid) in *. unfold load_module in *.
      destruct (modules !! id) as [body|]; [|done].
      rewrite (exec_stmts_fuel (req n) (req k)); [done| |].
      * intros x t Ht. apply IH; [lia|done].
      * intros E. by rewrite E in Hs.
Qed.

(** *** What a successful and what a failed request leave behind *)

(** The module being created keeps its record while its code runs. *)
Lemma exec_stmts_keeps_own_record (fuel : nat) (id : mid) (s : state) body env t :
  installedModules s !! id = None →
  on_out (exec_stmts (req fuel) id (length (heap s)) body env
            (mark_executed id (install id s))) (eq t) →
  installedModules t !! id = Some (ModuleRecord id (length (heap s)) false)
  ∧ is_Some (heap t !! length (heap s))
  ∧ id ∈ executed t
  ∧ extends s t
  ∨ exec_stmts (req fuel) id (length (heap s)) body env
      (mark_executed id (install id s)) = OutOfFuel.
Proof.
  intros Hid Ht.
  pose proof (exec_stmts_extends fuel id (length (heap s)) body env
                (mark_executed id (install id s))) as Hext.
  destruct (exec_stmts _ _ _ _ _ _) as [[] s2|e s2|]; simpl in *; [| |by right];
    subst s2; left; destruct Hext as (Ha & Hb & Hc).
  all: repeat split.
  all: try (apply Ha; simpl; by rewrite lookup_insert_eq).
  all: try (apply lookup_lt_is_Some; simpl in Hb; rewrite length_app in Hb;
            simpl in Hb; lia).
  all: try (eapply elem_of_prefix; [|exact Hc]; simpl; set_solver).
  all: try (intros x m Hx; apply Ha; simpl; rewrite lookup_insert_ne;
            [done|congruence]).
  all: try (simpl in Hb; rewrite length_app in Hb; simpl in Hb; lia).
  all: try (etrans; [|exact Hc]; simpl; by apply prefix_app_r).
Qed.

Lemma require_ok_record (fuel : nat) (id : mid) (s : state) r s1 :
  req fuel id s = Ok r s1 →
  ∃ m, installedModules s1 !! id = Some m ∧ exports m = r.
Proof.
  intros H. destruct (installedModules s !! id) as [m|] eqn:Hid.
  - rewrite (require_hit _ _ _ _ Hid) in H. injection H as <- <-. eauto.
  - destruct fuel as [|n]; [simpl in H; by rewrite Hid in H|].
    rewrite (require_miss _ _ _ Hid) in H. unfold load_module in H.
    destruct (modules !! id) as [body|]; [|done].
    destruct (exec_stmts _ _ _ _ _ _) as [[] s2|e s2|] eqn:E; simpl in H; [|done|done].
    injection H as <- <-.
    destruct (exec_stmts_keeps_own_record n id s body ∅ s2 Hid) as [(Hr & _)|Hr].
    + by rewrite E.
    + exists (ModuleRecord id (length (heap s)) true). split; [|done].
      simpl. rewrite lookup_alter_eq, Hr. done.
    + congruence.
Qed.

Lemma exec_stmts_raise (fuel : nat) me self :
  (∀ id t e t', req fuel id t = Raise e t' → in_progress_after t t' e) →
  ∀ body env s e s',
    exec_stmts (req fuel) me self body env s = Raise e s' →
    e = ModuleInitializationError me ∨ in_progress_after s s' e.
Proof.
  intros Hrq body. induction body as [|st rest IH]; intros env s e s' H.
  - done.
  - destruct st as [x dep|name ex|]; simpl in H.
    + pose proof (require_extends fuel dep s) as Hext.
      destruct (req fuel dep s) as [r t|e' t|] eqn:E; simpl in *; [| |done].
      * apply IH in H as [H|(y & ry & -> & Hn & Hs)]; [by left|right].
        exists y, ry. repeat split; [|done]. by apply (extends_lookup_None s t).
      * injection H as <- <-. right. by apply (Hrq dep).
    + destruct (eval env (heap s) ex).
      * apply IH in H as [H|(y & ry & -> & Hn & Hs)]; [by left|right].
        by exists y, ry.
      * injection H as <- <-. by left.
    + injection H as <- <-. by left.
Qed.

Lemma load_module_raise (fuel : nat) (id : mid) (s : state) e s' :
  (∀ x t e t', req fuel x t = Raise e t' → in_progress_after t t' e) →
  installedModules s !! id = None →
  load_module modules (req fuel) id s = Raise e s' →
  in_progress_after s s' e
  ∧ installedModules s' !! id = Some (ModuleRecord id (length (heap s)) false)
  ∧ is_Some (heap s' !! length (heap s))
  ∧ extends s s'.
Proof.
  intros IH Hid H. unfold load_module in H.
  destruct (modules !! id) as [body|].
  - destruct (exec_stmts _ _ _ _ _ _) as [[] s2|e2 s2|] eqn:E; simpl in H;
      [done| |done]. injection H as <- <-.
    destruct (exec_stmts_keeps_own_record fuel id s body ∅ s2 Hid)
      as [(Hr & Hh & _ & He)|Hr]; [by rewrite E| |congruence].
    split; [|done].
    apply (exec_stmts_raise fuel id _ IH) in E as [->|(y & ry & -> & Hn & Hs)].
    + by exists id, (length (heap s)).
    + exists y, ry. repeat split; [|done]. simpl in Hn.
      destruct (decide (id = y)) as [->|Hne].
      * by rewrite lookup_insert_eq in Hn.
      * by rewrite lookup_insert_ne in Hn.
  - injection H as <- <-. repeat split; simpl.
    + exists id, (length (heap s)). simpl. by rewrite lookup_insert_eq.
    + by rewrite lookup_insert_eq.
    + apply lookup_lt_is_Some. rewrite length_app. simpl. lia.
    + intros x m Hx. rewrite lookup_insert_ne; [done|congruence].
    + rewrite length_app. lia.
    + done.
Qed.

Lemma require_raise (fuel : nat) :
  ∀ id s e s', req fuel id s = Raise e s' →
    installedModules s !! id = None
    ∧ in_progress_after s s' e
    ∧ installedModules s' !! id = Some (ModuleRecord id (length (heap s)) false)
    ∧ is_Some (heap s' !! length (heap s))
    ∧ extends s s'.
Proof.
  induction fuel as [|n IH]; intros id s e s' H.
  - simpl in H. by destruct (installedModules s !! id).
  - destruct (installedModules s !! id) as [m|] eqn:Hid.
    + by rewrite (require_hit _ _ _ _ Hid) in H.
    + split; [done|]. rewrite (require_miss _ _ _ Hid) in H.
      apply load_module_raise in H; [done| |done].
      intros x t e0 t' Hx. by apply IH in Hx as (_ & Hx & _).
Qed.

(** After a request that ended, the module has a record. *)
Lemma require_registers (fuel : nat) (id : mid) (s : state) :
  req fuel id s ≠ OutOfFuel →
  is_Some (installedModules (state_after (req fuel id s) s) !! id).
Proof.
  intros H. destruct (req fuel id s) as [r s1|e s1|] eqn:E; simpl; [| |done].
  - apply require_ok_record in E as (m & Hm & _). eauto.
  - apply require_raise in E as (_ & _ & Hm & _). eauto.
Qed.

(** *** Sequences of consumer operations *)

Lemma run_op_extends (o : op) (s : state) : extends s (run_op modules o s).
Proof.
  destruct o as [id|r name v]; simpl.
  - pose proof (require_extends (enough_fuel modules) id s) as H.
    unfold require. destruct (req _ id s); simpl in *; [done|done|].
    apply extends_refl.
  - apply extends_set_heap.
Qed.

Lemma run_ops_extends (ops : list op) :
  ∀ s, extends s (run_ops modules ops s).
Proof.
  induction ops as [|o rest IH]; intros s; simpl; [apply extends_refl|].
  eapply extends_trans; [apply run_op_extends|apply IH].
Qed.

Lemma run_op_log_ok (o : op) (s : state) : log_ok s → log_ok (run_op modules o s).
Proof.
  intros Hs. destruct o as [id|r name v]; simpl; [|done].
  pose proof (require_log_ok (enough_fuel modules) id s Hs) as H.
  unfold require. by destruct (req _ id s).
Qed.

Lemma run_ops_log_ok (ops : list op) :
  ∀ s, log_ok s → log_ok (run_ops modules ops s).
Proof.
  induction ops as [|o rest IH]; intros s Hs; simpl; [done|].
  by apply IH, run_op_log_ok.
Qed.

Lemma init_state_log_ok : log_ok init_state.
Proof. split; simpl; [apply NoDup_nil_2|]. intros id H. by apply elem_of_nil in H. Qed.

End LoaderFacts.

(** ** The claims about the loader *)

Section LoaderClaims.

Variable modules : gmap mid (list stmt).

Abbreviation rq := (__webpack_require__ modules).

(** C1: two calls of [require(X)] in succession return the same reference:
    once a call has returned [r], every further call returns the address
    [r] again, and leaves the state, heap included, as it was: nothing is
    copied. *)
Theorem require_twice_same_reference (fuel fuel' : nat) (X : mid)
    (s s1 : state) (r : loc) :
  rq fuel X s = Ok r s1 → rq fuel' X s1 = Ok r s1.
Proof.
  intros H. apply require_ok_record in H as (m & Hm & <-).
  by apply require_hit.
Qed.

(** C10: on a cache hit [require(X)] returns [installedModules[X].exports]
    and the state it returns is the state it got: no record and no object
    is created, removed or changed. *)
Theorem cache_hit_changes_nothing (fuel : nat) (X : mid) (s : state)
    (m : module_record) :
  installedModules s !! X = Some m → rq fuel X s = Ok (exports m) s.
Proof. apply require_hit. Qed.

(** C2: over any sequence of consumer operations from process start, no
    module is logged as executed twice; a module with defining code that has
    no record is not in the log before its first request and is in it
    after; and after any request of [X], a further request of [X] is a cache
    read that returns the state unchanged. *)
Theorem defining_code_runs_at_most_once (ops : list op) (X : mid) :
  NoDup (executed (run_ops modules ops init_state))
  ∧ (installedModules (run_ops modules ops init_state) !! X = None →
     is_Some (modules !! X) →
     (X ∉ executed (run_ops modules ops init_state))
     ∧ (X ∈ executed (run_op modules (OpRequire X)
                        (run_ops modules ops init_state))))
  ∧ (∀ fuel, ∃ r,
       rq fuel X (run_op modules (OpRequire X) (run_ops modules ops init_state))
       = Ok r (run_op modules (OpRequire X) (run_ops modules ops init_state))).
Proof.
  pose proof (run_ops_log_ok modules ops _ init_state_log_ok) as [Hnd Hin].
  set (s := run_ops modules ops init_state) in *.
  split; [done|]. split.
  - intros Hx [body Hb]. split.
    + intros Hx'. apply Hin in Hx' as [m Hm]. congruence.
    + simpl. unfold require, enough_fuel.
      rewrite (require_miss _ _ _ _ Hx). unfold load_module. rewrite Hb.
      destruct (exec_stmts_keeps_own_record modules (size modules) X s body ∅
                  (state_after (exec_stmts (rq (size modules)) X (length (heap s))
                                  body ∅ (mark_executed X (install X s))) s) Hx)
        as [(_ & _ & He & _)|Hr].
      * by destruct (exec_stmts _ _ _ _ _ _).
      * by destruct (exec_stmts _ _ _ _ _ _) as [[] t|e t|].
      * pose proof (require_terminates modules X s) as Ht.
        unfold require, enough_fuel in Ht.
        rewrite (require_miss _ _ _ _ Hx) in Ht. unfold load_module in Ht.
        rewrite Hb, Hr in Ht. done.
  - intros fuel. simpl.
    destruct (require_registers modules (enough_fuel modules) X s
                (require_terminates modules X s)) as [m Hm].
    exists (exports m). by apply require_hit.
Qed.

(** C4: the record is in the registry before the defining code runs, and
    [require] terminates on every bundle, cyclic ones included:
    [enough_fuel] always suffices and more fuel gives the same outcome; the
    state in which the code of a new module [X] starts already has the
    record of [X], not initialized, and in every state from there on a
    request of [X] returns that record's object without creating anything
    and without failing, with no fuel at all: a module [B] that imports [X]
    meanwhile goes on with the object of [X] bound. *)
Theorem require_terminates_on_cycles (X : mid) (s : state) :
  require modules X s ≠ OutOfFuel
  ∧ (∀ fuel, enough_fuel modules ≤ fuel → rq fuel X s = require modules X s)
  ∧ (installedModules s !! X = None →
     ∀ body, modules !! X = Some body →
     (∀ n, rq (S n) X s
           = bind (exec_stmts (rq n) X (length (heap s)) body ∅
                     (mark_executed X (install X s)))
               (fun _ s2 => Ok (length (heap s)) (mark_initialized X s2)))
     ∧ installedModules (mark_executed X (install X s)) !! X
       = Some (ModuleRecord X (length (heap s)) false)
     ∧ ∀ t, extends (mark_executed X (install X s)) t →
         rq 0 X t = Ok (length (heap s)) t
         ∧ ∀ n B self x rest env,
             exec_stmts (rq n) B self (SImport x X :: rest) env t
             = exec_stmts (rq n) B self rest
                 (<[x := VRef (length (heap s))]> env) t).
Proof.
  split; [apply require_terminates|]. split.
  - intros fuel Hf. apply require_fuel; [done|apply require_terminates].
  - intros Hx body Hb. split; [|split].
    + intros n. rewrite (require_miss _ _ _ _ Hx). unfold load_module.
      by rewrite Hb.
    + simpl. by rewrite lookup_insert_eq.
    + intros t (Ha & _).
      assert (installedModules t !! X
              = Some (ModuleRecord X (length (heap s)) false)) as Ht.
      { apply Ha. simpl. by rewrite lookup_insert_eq. }
      split; [by rewrite (require_hit _ 0 X t _ Ht)|].
      intros n B self x rest env. simpl.
      by rewrite (require_hit _ n X t _ Ht).
Qed.

(** C7: if the defining code of a new module [X] fails, [require(X)] raises
    that error to its caller; the error is a [ModuleInitializationError]
    naming a module that this call created and that is left not
    initialized; the record of [X] and its Exports Object stay, as does
    every record that was there before; and a further [require(X)] returns
    that object and leaves the state, log included, as it is. *)
Theorem failed_initialization_keeps_record (n : nat) (X : mid) (s : state)
    (body : list stmt) (e : error) (s' : state) :
  installedModules s !! X = None →
  modules !! X = Some body →
  exec_stmts (rq n) X (length (heap s)) body ∅ (mark_executed X (install X s))
    = Raise e s' →
  rq (S n) X s = Raise e s'
  ∧ in_progress_after s s' e
  ∧ installedModules s' !! X = Some (ModuleRecord X (length (heap s)) false)
  ∧ is_Some (heap s' !! length (heap s))
  ∧ extends s s'
  ∧ ∀ fuel, rq fuel X s' = Ok (length (heap s)) s'.
Proof.
  intros Hx Hb E.
  assert (rq (S n) X s = Raise e s') as H.
  { rewrite (require_miss _ _ _ _ Hx). unfold load_module. by rewrite Hb, E. }
  split; [done|].
  apply require_raise in H as (_ & Hp & Hr & Hh & He).
  repeat split; try done; try apply He.
  intros fuel. by rewrite (require_hit _ _ _ _ _ Hr).
Qed.


(** C6, as the generated code has it: the use site of a named import reads
    the property on the shared Exports Object when it is evaluated. Once the
    import statement has run, a write to [exports.f] is what a later use
    yields; a write to another property or to another object leaves what the
    use yields as it was. *)
Theorem named_use_site_reads_current_value (X : mid) (f : string) (v : value)
    (s : state) (m : module_record) :
  installedModules s !! X = Some m →
  is_Some (heap s !! exports m) →
  (∀ fuel, rq fuel X s = Ok (exports m) s)
  ∧ use_site (NamedProperty f) (set_prop (heap s) (exports m) f v) (exports m)
    = Some v
  ∧ (∀ f', f' ≠ f →
       use_site (NamedProperty f) (set_prop (heap s) (exports m) f' v) (exports m)
       = use_site (NamedProperty f) (heap s) (exports m))
  ∧ (∀ r' f', r' ≠ exports m →
       use_site (NamedProperty f) (set_prop (heap s) r' f' v) (exports m)
       = use_site (NamedProperty f) (heap s) (exports m)).
Proof.
  intros Hm Hobj. simpl. split; [|split; [|split]].
  - intros fuel. by apply require_hit.
  - by apply member_set_prop_eq.
  - intros f' Hne. by apply member_set_prop_other_name.
  - intros r' f' Hne. by apply member_set_prop_other_object.
Qed.

End LoaderClaims.

(** ** The import shapes *)

(** C8, as the generated code has it: the use site of a default import is
    one read of the property [default_key] of the module object. It yields
    that property's value if the module has a default-marked export, as the
    spec's resolution does, and [undefined] otherwise: no error is raised. *)
Theorem default_use_site_is_a_property_read (id : mid) (h : heap_t) (r : loc)
    (o : object) :
  h !! r = Some o →
  use_site DefaultProperty h r = Some (get_prop o default_key)
  ∧ (o !! default_key = None → use_site DefaultProperty h r = Some VUndefined)
  ∧ (∀ v, o !! default_key = Some v →
       use_site DefaultProperty h r = Some v
       ∧ spec_default_property id h r = Some (inr v)).
Proof.
  intros Ho. unfold use_site, spec_default_property, member, get_prop.
  rewrite Ho. simpl. split; [done|]. split.
  - by intros ->.
  - by intros v ->.
Qed.

(** ** The bundler configuration *)

Section ConfigClaims.

Variable path_resolve : string → string → string.
Variable __dirname : string.

(** C9: [entry] has the three names of the list as its keys and no other,
    and maps each name [m] to [path.resolve(__dirname, "./test/<m>.js")]. *)
Theorem entry_has_the_three_entry_points (k : string) :
  entry path_resolve __dirname !! k
  = (if decide (k ∈ entry_names)
     then Some (path_resolve __dirname ("./test/" ++ k ++ ".js"))
     else None)
  ∧ dom (entry path_resolve __dirname)
    = {["import_function"; "import_default_module"; "import_whole_module"]}
  ∧ size (entry path_resolve __dirname) = 3.
Proof.
  unfold entry, entry_names. simpl. split; [|split].
  - case_decide as Hk.
    + repeat (apply elem_of_cons in Hk as [->|Hk]); [| | |by apply elem_of_nil in Hk].
      * rewrite lookup_insert_ne by done. rewrite lookup_insert_ne by done.
        by rewrite lookup_insert_eq.
      * rewrite lookup_insert_ne by done. by rewrite lookup_insert_eq.
      * by rewrite lookup_insert_eq.
    + rewrite !lookup_insert_ne; [apply lookup_empty| | |];
        intros <-; apply Hk; set_solver.
  - rewrite !dom_insert_L, dom_empty_L. set_solver.
  - rewrite !map_size_insert_None; [by rewrite map_size_empty|..].
    + apply lookup_empty.
    + by rewrite lookup_insert_ne.
    + rewrite lookup_insert_ne by done. by rewrite lookup_insert_ne.
Qed.

End ConfigClaims.

(** ** The claims on the example bundles *)

Lemma init_state_wf : wf_state init_state.
Proof. intros id m H. simpl in H. by rewrite lookup_empty in H. Qed.

Lemma require_twice_same_reference_witness :
  __webpack_require__ readme_modules 2 0 init_state = Ok 0 utils_loaded
  ∧ __webpack_require__ readme_modules 0 0 utils_loaded = Ok 0 utils_loaded.
Proof.
  assert (__webpack_require__ readme_modules 2 0 init_state = Ok 0 utils_loaded)
    as H by (vm_compute; reflexivity).
  split; [exact H|].
  exact (require_twice_same_reference readme_modules 2 0 0 init_state
           utils_loaded 0 H).
Defined.

Lemma cache_hit_changes_nothing_witness :
  installedModules bundle_loaded !! 1 = Some (ModuleRecord 1 1 true)
  ∧ __webpack_require__ readme_modules 0 1 bundle_loaded = Ok 1 bundle_loaded.
Proof.
  assert (installedModules bundle_loaded !! 1 = Some (ModuleRecord 1 1 true))
    as H by (vm_compute; reflexivity).
  split; [exact H|].
  exact (cache_hit_changes_nothing readme_modules 0 1 bundle_loaded
           (ModuleRecord 1 1 true) H).
Defined.

(** The module that fails half way: the error names it, its object keeps what
    was exported before the failure and nothing of what comes after, and the
    next request hands that object out. *)
Lemma failed_initialization_keeps_record_witness :
  __webpack_require__ failing_modules 1 0 init_state
  = Raise (ModuleInitializationError 0) failed_state
  ∧ member (heap failed_state) 0 "before" = Some (VNum 1)
  ∧ member (heap failed_state) 0 "after" = Some VUndefined
  ∧ executed failed_state = [0]
  ∧ ∀ fuel, __webpack_require__ failing_modules fuel 0 failed_state
            = Ok 0 failed_state.
Proof.
  pose proof (failed_initialization_keeps_record failing_modules 0 0 init_state
                [SExport "before" (EVal (VNum 1)); SThrow;
                 SExport "after" (EVal (VNum 2))]
                (ModuleInitializationError 0) failed_state) as H.
  destruct H as (H1 & _ & _ & _ & _ & H2);
    [vm_compute; reflexivity|vm_compute; reflexivity|vm_compute; reflexivity|].
  split; [exact H1|].
  split; [vm_compute; reflexivity|].
  split; [vm_compute; reflexivity|].
  split; [vm_compute; reflexivity|exact H2].
Defined.

Lemma bundle_utils_record :
  installedModules bundle_loaded !! 0 = Some (ModuleRecord 0 0 true).
Proof. vm_compute. reflexivity. Qed.

Lemma bundle_utils_object : is_Some (heap bundle_loaded !! 0).
Proof. by exists utils_exports. Qed.


(** C6, the claim as written fails: after the import statement of
    [utils.js] has run, a write to [fetchData] changes what the use site
    [utils["fetchData"]] yields; a value captured at the import would have
    stayed. *)
Lemma named_use_site_capture_counterexample :
  __webpack_require__ readme_modules 0 0 bundle_loaded = Ok 0 bundle_loaded
  ∧ use_site (NamedProperty "fetchData") (heap bundle_loaded) 0
    = Some (VFun (FConst tom_and_mary))
  ∧ use_site (NamedProperty "fetchData")
      (set_prop (heap bundle_loaded) 0 "fetchData" stub_empty) 0
    = Some stub_empty
  ∧ spec_named_capture "fetchData" (heap bundle_loaded)
      (set_prop (heap bundle_loaded) 0 "fetchData" stub_empty) 0
    = Some (VFun (FConst tom_and_mary))
  ∧ stub_empty ≠ VFun (FConst tom_and_mary).
Proof.
  split; [vm_compute; reflexivity|].
  split; [vm_compute; reflexivity|].
  split; [vm_compute; reflexivity|].
  split; [vm_compute; reflexivity|].
  unfold stub_empty, tom_and_mary. discriminate.
Qed.

Lemma named_use_site_reads_current_value_witness :
  installedModules bundle_loaded !! 0 = Some (ModuleRecord 0 0 true)
  ∧ is_Some (heap bundle_loaded !! 0)
  ∧ use_site (NamedProperty "fetchData")
      (set_prop (heap bundle_loaded) 0 "fetchData" stub_empty) 0
    = Some stub_empty.
Proof.
  split; [exact bundle_utils_record|]. split; [exact bundle_utils_object|].
  exact (proj1 (proj2
    (named_use_site_reads_current_value readme_modules 0 "fetchData" stub_empty
       bundle_loaded (ModuleRecord 0 0 true) bundle_utils_record
       bundle_utils_object))).
Defined.

(** C8, the claim as written fails: [utils.js] has no default-marked export,
    and the use site of a default import of it yields [undefined] where the
    spec's resolution raises [MissingDefaultExportError]. *)
Lemma default_use_site_counterexample :
  heap bundle_loaded !! 0 = Some utils_exports
  ∧ utils_exports !! default_key = None
  ∧ use_site DefaultProperty (heap bundle_loaded) 0 = Some VUndefined
  ∧ spec_default_property 0 (heap bundle_loaded) 0
    = Some (inl (MissingDefaultExportError 0)).
Proof.
  split; [reflexivity|].
  split; [vm_compute; reflexivity|].
  split; vm_compute; reflexivity.
Qed.

Lemma default_use_site_is_a_property_read_witness :
  heap default_loaded !! 0
  = Some (<[default_key := VFun (FConst tom_and_mary)]> ∅)
  ∧ use_site DefaultProperty (heap default_loaded) 0
    = Some (VFun (FConst tom_and_mary)).
Proof.
  assert (heap default_loaded !! 0
          = Some (<[default_key := VFun (FConst tom_and_mary)]> (∅ : object)))
    as H by (vm_compute; reflexivity).
  split; [exact H|].
  refine (proj1 (proj2 (proj2
    (default_use_site_is_a_property_read 4 (heap default_loaded) 0 _ H))
    (VFun (FConst tom_and_mary)) _)).
  vm_compute. reflexivity.
Defined.

(** The loader, run on the README's bundle from process start, leaves
    [bundle_loaded]. *)
Example bundle_loaded_by_the_loader :
  run_ops readme_modules [OpRequire 0; OpRequire 1] init_state = bundle_loaded.
Proof. vm_compute. reflexivity. Qed.

(** The cycle of [cyclic_modules]: the request of module 0 returns; module
    1 got the object of module 0 itself, saw in it what module 0 had
    exported before requiring module 1 and not yet what it exported after;
    each defining code ran once. *)
Example cyclic_request :
  require cyclic_modules 0 init_state = Ok 0 cyclic_loaded
  ∧ installedModules cyclic_loaded !! 0 = Some (ModuleRecord 0 0 true)
  ∧ installedModules cyclic_loaded !! 1 = Some (ModuleRecord 1 1 true)
  ∧ member (heap cyclic_loaded) 1 "a_ns" = Some (VRef 0)
  ∧ member (heap cyclic_loaded) 1 "saw_early" = Some (VNum 1)
  ∧ member (heap cyclic_loaded) 1 "saw_late" = Some VUndefined
  ∧ member (heap cyclic_loaded) 0 "late" = Some (VNum 2)
  ∧ length (heap cyclic_loaded) = 2
  ∧ executed cyclic_loaded = [0; 1].
Proof. repeat split; vm_compute; reflexivity. Qed.

(** An importer of the failing module: the error of module 0 reaches the
    caller of [require(1)], and both records stay, not initialized. *)
Example failure_reaches_the_caller :
  ∃ s', require failing_modules 1 init_state
        = Raise (ModuleInitializationError 0) s'
  ∧ installedModules s' !! 0 = Some (ModuleRecord 0 1 false)
  ∧ installedModules s' !! 1 = Some (ModuleRecord 1 0 false)
  ∧ executed s' = [1; 0].
Proof.
  exists (state_after (require failing_modules 1 init_state) init_state).
  repeat split; vm_compute; reflexivity.
Qed.

(** * Further properties of the code *)

(** ** The reduce of webpack.config.js *)

Section ConfigReduceFacts.

Variable path_resolve : string → string → string.
Variable __dirname : string.


End ConfigReduceFacts.

(** ** Writing properties: mocks *)

Lemma set_prop_lookup (h : heap_t) (r r' : loc) (name : string) (v : value) :
  set_prop h r name v !! r'
  = if decide (r = r') then (fun o : object => <[name := v]> o) <$> h !! r'
    else h !! r'.
Proof.
  unfold set_prop. case_decide as Hr.
  - subst. apply list_lookup_alter_eq.
  - by apply list_lookup_alter_ne.
Qed.

(** X2: a mock that is taken back leaves no trace: writing [v] over a
    property that held [v0] and then writing [v0] again gives the heap there
    was before. *)
Theorem stub_then_restore (h : heap_t) (r : loc) (o : object) (f : string)
    (v0 v : value) :
  h !! r = Some o → o !! f = Some v0 →
  set_prop (set_prop h r f v) r f v0 = h.
Proof.
  intros Ho Hf. apply list_eq. intros i. rewrite !set_prop_lookup.
  case_decide as Hi; [|done]. subst i. rewrite Ho. simpl.
  f_equal. rewrite insert_insert_eq. by apply insert_id.
Qed.

(** X4: through the whole-module reference both the named and the default
    export can be replaced: a write to the property that a named or default
    use site reads is what that use site yields afterwards, a write to any
    other property leaves what it yields, and no write changes what a
    whole-module use site yields, the reference itself. *)
Theorem mock_reaches_named_and_default (style : import_style) (h : heap_t)
    (r : loc) (k : string) (v : value) :
  is_Some (h !! r) → style_key style = Some k →
  use_site style (set_prop h r k v) r = Some v
  ∧ (∀ k' v', k' ≠ k → use_site style (set_prop h r k' v') r = use_site style h r)
  ∧ (∀ r' k' v',
       use_site WholeNamespace (set_prop h r' k' v') r
       = use_site WholeNamespace h r).
Proof.
  intros Hr Hk. destruct style as [|name|]; simpl in Hk; [done| |];
    injection Hk as <-; simpl.
  - split; [by apply member_set_prop_eq|]. split; [|done].
    intros k' v' Hne. by apply member_set_prop_other_name.
  - split; [by apply member_set_prop_eq|]. split; [|done].
    intros k' v' Hne. by apply member_set_prop_other_name.
Qed.

(** ** Calling through the module object *)


(** X7: a function stored under the very member it calls never returns: a
    stub of [fetchData] that calls [fetchData] through the module object
    recurses for ever. *)
Theorem self_calling_member_never_returns (h : heap_t) (r : loc) (f : string)
    (fuel : nat) :
  member h r f = Some (VFun (FCallMember r f)) →
  call fuel h (FCallMember r f) = None.
Proof.
  intros Hm. induction fuel as [|n IH]; simpl; [done|]. by rewrite Hm.
Qed.

(** ** Witnesses *)

Lemma stub_then_restore_witness :
  heap bundle_loaded !! 0 = Some utils_exports
  ∧ utils_exports !! "fetchData" = Some (VFun (FConst tom_and_mary))
  ∧ set_prop (set_prop (heap bundle_loaded) 0 "fetchData" stub_empty) 0
      "fetchData" (VFun (FConst tom_and_mary))
    = heap bundle_loaded.
Proof.
  assert (utils_exports !! "fetchData" = Some (VFun (FConst tom_and_mary)))
    as H by (vm_compute; reflexivity).
  split; [reflexivity|]. split; [exact H|].
  exact (stub_then_restore (heap bundle_loaded) 0 utils_exports "fetchData"
           (VFun (FConst tom_and_mary)) stub_empty eq_refl H).
Defined.

Lemma mock_reaches_named_and_default_witness :
  is_Some (heap bundle_loaded !! 0)
  ∧ style_key DefaultProperty = Some default_key
  ∧ use_site DefaultProperty
      (set_prop (heap bundle_loaded) 0 default_key stub_empty) 0
    = Some stub_empty.
Proof.
  split; [exact bundle_utils_object|]. split; [reflexivity|].
  exact (proj1 (mock_reaches_named_and_default DefaultProperty
                  (heap bundle_loaded) 0 default_key stub_empty
                  bundle_utils_object eq_refl)).
Defined.

Lemma self_calling_member_never_returns_witness :
  member (set_prop (heap bundle_loaded) 0 "fetchData"
            (VFun (FCallMember 0 "fetchData"))) 0 "fetchData"
  = Some (VFun (FCallMember 0 "fetchData"))
  ∧ call 7 (set_prop (heap bundle_loaded) 0 "fetchData"
              (VFun (FCallMember 0 "fetchData")))
      (FCallMember 0 "fetchData") = None.
Proof.
  assert (member (set_prop (heap bundle_loaded) 0 "fetchData"
                    (VFun (FCallMember 0 "fetchData"))) 0 "fetchData"
          = Some (VFun (FCallMember 0 "fetchData"))) as H
    by (vm_compute; reflexivity).
  split; [exact H|].
  exact (self_calling_member_never_returns _ 0 "fetchData" 7 H).
Defined.


(** * Bundles whose code may assign [module.exports] *)

Lemma answers_agree_same_object (X : mid) (s s' : state) (T : answers) :
  exports <$> installedModules s' !! X = exports <$> installedModules s !! X →
  answers_agree X s T → answers_agree X s' T.
Proof.
  unfold answers_agree. intros H.
  destruct (installedModules s !! X) as [m|], (installedModules s' !! X) as [m'|];
    simpl in H; try done.
  injection H as H. by rewrite H.
Qed.

Lemma answers_agree_install (X id : mid) (s : state) (T : answers) :
  installedModules s !! id = None →
  answers_agree X s T → answers_agree X (install id s) T.
Proof.
  intros Hid H. destruct (decide (id = X)) as [->|Hne].
  - unfold answers_agree in *. rewrite Hid in H. simpl.
    rewrite lookup_insert_eq. intros r Hr. by apply H in Hr.
  - apply (answers_agree_same_object X s); [|done]. simpl.
    by rewrite lookup_insert_ne.
Qed.

Lemma answers_agree_answer (X id : mid) (s : state) (T : answers)
    (m : module_record) :
  installedModules s !! id = Some m →
  answers_agree X s T → answers_agree X s (T ++ [(id, exports m)])%list.
Proof.
  intros Hid H. unfold answers_agree in *.
  destruct (installedModules s !! X) as [mx|] eqn:HX.
  - intros r Hr. apply elem_of_app in Hr as [Hr|Hr]; [by apply H|].
    apply list_elem_of_singleton in Hr. injection Hr as -> ->. congruence.
  - intros r Hr. apply elem_of_app in Hr as [Hr|Hr]; [by apply H in Hr|].
    apply list_elem_of_singleton in Hr. injection Hr as -> ->. congruence.
Qed.

Lemma keeps_records_refl (s : state) : keeps_records s s.
Proof. by intros y. Qed.

Lemma keeps_records_trans (s1 s2 s3 : state) :
  keeps_records s1 s2 → keeps_records s2 s3 → keeps_records s1 s3.
Proof. intros H1 H2 y Hy. by apply H2, H1. Qed.

Lemma keeps_records_install (id : mid) (s : state) :
  keeps_records s (mark_executed id (install id s)).
Proof.
  intros y [m Hy]. simpl. destruct (decide (id = y)) as [->|Hne].
  - rewrite lookup_insert_eq. eauto.
  - rewrite lookup_insert_ne by done. eauto.
Qed.

Section CjsFacts.

Variable cmodules : gmap mid (list cjs_stmt).

Abbreviation crq := (cjs_require cmodules).

Lemma cjs_require_hit (fuel : nat) (id : mid) (s : state) (m : module_record) :
  installedModules s !! id = Some m →
  crq fuel id s = (Ok (exports m) s, [(id, exports m)]).
Proof. intros H. destruct fuel; simpl; by rewrite H. Qed.

Lemma cjs_require_miss (fuel : nat) (id : mid) (s : state) :
  installedModules s !! id = None →
  crq (S fuel) id s = answer id (cjs_load cmodules (crq fuel) id s).
Proof. intros H. simpl. by rewrite H. Qed.

Section OneObject.

Variable X : mid.
Hypothesis X_keeps : assigns_module_exports cmodules X = false.

Lemma cjs_exec_post (rq : mid → state → traced loc) (me : mid) (self : loc) :
  (∀ id s T, answers_agree X s T → cjs_post X s T (rq id s)) →
  ∀ body env s T,
    (me = X → existsb is_module_exports body = false) →
    answers_agree X s T →
    cjs_post X s T (cjs_exec rq me self body env s).
Proof.
  intros Hrq body. unfold cjs_post in *.
  induction body as [|st rest IH]; intros env s T Hme Hs.
  - simpl. rewrite app_nil_r. split; [done|].
    apply keeps_records_refl.
  - destruct st as [[x dep|name e|]|o]; cbn [cjs_exec].
    + specialize (Hrq dep s T Hs).
      destruct (rq dep s) as [[r s'|e s'|] tr]; simpl in *; [|done|done].
      destruct Hrq as [Ha Hk].
      specialize (IH (<[x := VRef r]> env) s' (T ++ tr)%list Hme Ha).
      destruct (cjs_exec rq me self rest _ s') as [[[] s2|e s2|] tr'];
        simpl in *; [| |done]; rewrite app_assoc;
        (split; [apply IH|eapply keeps_records_trans; [done|apply IH]]).
    + destruct (eval env (heap s) e) as [v|].
      * assert (answers_agree X (set_heap s (set_prop (heap s) self name v)) T)
          as Ha by (by apply (answers_agree_same_object X s)).
        specialize (IH env _ T Hme Ha).
        destruct (cjs_exec rq me self rest env _) as [[[] s2|e2 s2|] tr'];
          simpl in *; [| |done]; (split; [apply IH|exact (proj2 IH)]).
      * simpl. rewrite app_nil_r. split; [done|].
        apply keeps_records_refl.
    + simpl. rewrite app_nil_r. split; [done|].
      apply keeps_records_refl.
    + assert (me ≠ X) as Hne by (intros HX; by apply Hme in HX).
      assert (answers_agree X (reassign_exports me o s) T) as Ha.
      { apply (answers_agree_same_object X s); [|done]. simpl.
        by rewrite lookup_alter_ne. }
      specialize (IH env (reassign_exports me o s) T
                    (fun HX => False_ind _ (Hne HX)) Ha).
      destruct (cjs_exec rq me self rest env _) as [[[] s2|e s2|] tr'];
        simpl in *; [| |done];
        (split; [apply IH|]; intros y Hy; apply IH; simpl;
         rewrite lookup_alter; destruct Hy as [m Hy]; case_decide; subst;
         rewrite Hy; simpl; eauto).
Qed.

Lemma cjs_require_post (fuel : nat) :
  ∀ id s T, answers_agree X s T → cjs_post X s T (crq fuel id s).
Proof.
  induction fuel as [|n IH]; intros id s T Hs.
  - unfold cjs_post. simpl. destruct (installedModules s !! id) as [m|] eqn:Hid;
      simpl; [|done]. split; [by apply answers_agree_answer|].
    apply keeps_records_refl.
  - destruct (installedModules s !! id) as [m|] eqn:Hid.
    + rewrite (cjs_require_hit _ _ _ _ Hid). unfold cjs_post. simpl.
      split; [by apply answers_agree_answer|]. apply keeps_records_refl.
    + rewrite (cjs_require_miss _ _ _ Hid). unfold cjs_load.
      pose proof (answers_agree_install X id s T Hid Hs) as Hi.
      destruct (cmodules !! id) as [body|] eqn:Hb.
      * assert (id = X → existsb is_module_exports body = false) as Hme.
        { intros ->. unfold assigns_module_exports in X_keeps.
          by rewrite Hb in X_keeps. }
        assert (answers_agree X (mark_executed id (install id s)) T) as Hi'.
        { by apply (answers_agree_same_object X (install id s)). }
        pose proof (cjs_exec_post (crq n) id (length (heap s)) IH body ∅
                      _ T Hme Hi') as Hex.
        unfold cjs_post in *.
        destruct (cjs_exec _ _ _ _ _ _) as [[[] s2|e s2|] tr];
          simpl in *; [| |done].
        -- destruct Hex as [Ha Hk]. rewrite app_nil_r.
           destruct (Hk id) as [mi Hmi].
           { simpl. rewrite lookup_insert_eq. eauto. }
           rewrite Hmi. simpl. split.
           ++ rewrite app_assoc.
              apply (answers_agree_same_object X
                       (State (installedModules s2) (heap s2) (executed s2))).
              { simpl. rewrite lookup_alter.
                case_decide; [subst; by rewrite Hmi|done]. }
              apply (answers_agree_answer X id _ _ mi); [done|].
              by destruct s2.
           ++ intros y Hy. simpl. rewrite lookup_alter.
              destruct (Hk y) as [my Hmy].
              { by apply keeps_records_install. }
              case_decide; subst; rewrite Hmy; simpl; eauto.
        -- destruct Hex as [Ha Hk]. split; [done|].
           eapply keeps_records_trans; [apply keeps_records_install|done].
      * unfold cjs_post. simpl. rewrite app_nil_r. split; [done|].
        intros y [m Hy]. simpl. destruct (decide (id = y)) as [->|Hne].
        -- rewrite lookup_insert_eq. eauto.
        -- rewrite lookup_insert_ne by done. eauto.
Qed.

End OneObject.

(** *** No record is lost, and every request ends *)

Lemma cjs_unlisted_keeps (id : mid) :
  cmodules !! id = None → assigns_module_exports cmodules id = false.
Proof. intros H. unfold assigns_module_exports. by rewrite H. Qed.

Lemma answers_agree_nil (X : mid) (s : state) : answers_agree X s [].
Proof.
  unfold answers_agree. destruct (installedModules s !! X); intros r Hr;
    by apply elem_of_nil in Hr.
Qed.

Lemma fresh_unlisted : cmodules !! fresh (dom cmodules) = None.
Proof. apply not_elem_of_dom, is_fresh. Qed.

Lemma cjs_require_keeps (fuel : nat) (id : mid) (s : state) :
  on_out (crq fuel id s).1 (keeps_records s).
Proof.
  pose proof (cjs_require_post (fresh (dom cmodules))
                (cjs_unlisted_keeps _ fresh_unlisted) fuel id s []
                (answers_agree_nil _ s)) as H.
  unfold cjs_post in H. by destruct (crq fuel id s).1; simpl in *; try apply H.
Qed.

Lemma cjs_pending_keeps (s s' : state) :
  keeps_records s s' → cjs_pending cmodules s' ≤ cjs_pending cmodules s.
Proof.
  intros Hk. unfold cjs_pending. apply subseteq_size.
  intros x. rewrite !elem_of_difference, !elem_of_dom.
  intros [Hx Hn]. split; [done|]. intros Hs. by apply Hn, Hk.
Qed.

Lemma cjs_exec_terminates (n : nat) (me : mid) (self : loc) :
  (∀ id s, cjs_pending cmodules s < n → (crq n id s).1 ≠ OutOfFuel) →
  ∀ body env s, cjs_pending cmodules s < n →
    (cjs_exec (crq n) me self body env s).1 ≠ OutOfFuel.
Proof.
  intros Hrq body. induction body as [|st rest IH]; intros env s Hs.
  - done.
  - destruct st as [[x dep|name e|]|o]; cbn [cjs_exec].
    + specialize (Hrq dep s Hs).
      pose proof (cjs_require_keeps n dep s) as Hk.
      destruct (crq n dep s) as [[r s'|e s'|] tr]; simpl in *; [|done|done].
      apply cjs_pending_keeps in Hk.
      specialize (IH (<[x := VRef r]> env) s' ltac:(lia)).
      by destruct (cjs_exec (crq n) me self rest _ s') as [o tr'].
    + destruct (eval env (heap s) e); [|done]. by apply IH.
    + done.
    + apply IH.
      assert (keeps_records s (reassign_exports me o s)) as Hk.
      { intros y [m Hy]. simpl. rewrite lookup_alter.
        case_decide; subst; rewrite Hy; simpl; eauto. }
      apply cjs_pending_keeps in Hk. lia.
Qed.

Lemma cjs_require_terminates_aux (fuel : nat) :
  ∀ id s, cjs_pending cmodules s < fuel → (crq fuel id s).1 ≠ OutOfFuel.
Proof.
  induction fuel as [|n IH]; intros id s Hs; [lia|].
  destruct (installedModules s !! id) as [m|] eqn:Hid.
  - by rewrite (cjs_require_hit _ _ _ _ Hid).
  - rewrite (cjs_require_miss _ _ _ Hid). unfold cjs_load.
    destruct (cmodules !! id) as [body|] eqn:Hb; [|done].
    assert (cjs_pending cmodules (mark_executed id (install id s)) < n) as Hlt.
    { assert (cjs_pending cmodules (mark_executed id (install id s))
              < cjs_pending cmodules s); [|lia].
      unfold cjs_pending. apply subset_size. simpl. rewrite dom_insert_L.
      assert (id ∈ dom cmodules) as Hin by (apply elem_of_dom; eauto).
      apply not_elem_of_dom in Hid. split.
      - intros x. rewrite !elem_of_difference, elem_of_union, elem_of_singleton.
        intros [Hx Hn]. split; [done|]. intros Hd. apply Hn. by right.
      - intros Hsub. specialize (Hsub id).
        rewrite !elem_of_difference, elem_of_union, elem_of_singleton in Hsub.
        destruct Hsub as [_ Hn]; [done|]. apply Hn. by left. }
    pose proof (cjs_exec_terminates n id (length (heap s)) IH body ∅ _ Hlt)
      as Hex.
    by destruct (cjs_exec _ _ _ _ _ _) as [[[] s2|e s2|] tr].
Qed.

Lemma cjs_require_terminates (id : mid) (s : state) :
  (crq (S (size cmodules)) id s).1 ≠ OutOfFuel.
Proof.
  apply cjs_require_terminates_aux.
  assert (cjs_pending cmodules s ≤ size cmodules); [|lia].
  unfold cjs_pending. rewrite <- (size_dom (D := gset mid) cmodules).
  apply subseteq_size. intros x. rewrite elem_of_difference. by intros [Hx _].
Qed.

(** *** Over the lifetime *)

Lemma cjs_run_op_agree (X : mid) (o : op) (st : state * answers) :
  assigns_module_exports cmodules X = false →
  answers_agree X st.1 st.2 →
  answers_agree X (cjs_run_op cmodules o st).1 (cjs_run_op cmodules o st).2.
Proof.
  intros HX H. destruct o as [id|r name v]; unfold cjs_run_op.
  - pose proof (cjs_require_post X HX (S (size cmodules)) id st.1 st.2 H) as Hp.
    pose proof (cjs_require_terminates id st.1) as Ht.
    unfold cjs_post in Hp.
    destruct (crq (S (size cmodules)) id st.1) as [[r s'|e s'|] tr];
      simpl in *; [apply Hp|apply Hp|done].
  - by apply (answers_agree_same_object X st.1).
Qed.

Lemma cjs_run_ops_agree (X : mid) (ops : list op) :
  assigns_module_exports cmodules X = false →
  ∀ st, answers_agree X st.1 st.2 →
    answers_agree X (cjs_run_ops cmodules ops st).1
      (cjs_run_ops cmodules ops st).2.
Proof.
  intros HX. induction ops as [|o rest IH]; intros st H; simpl; [done|].
  by apply IH, cjs_run_op_agree.
Qed.


End CjsFacts.

(** On a bundle without assignments to [module.exports] this loader is the
    loader of the sections above. *)
Section Lift.

Variable modules : gmap mid (list stmt).

Lemma cjs_exec_lift (rq' : mid → state → traced loc)
    (rq : mid → state → outcome loc) (me : mid) (self : loc) :
  (∀ id s, (rq' id s).1 = rq id s) →
  ∀ body env s,
    (cjs_exec rq' me self (CStmt <$> body) env s).1
    = exec_stmts rq me self body env s.
Proof.
  intros Hrq body. induction body as [|st rest IH]; intros env s; [done|].
  destruct st as [x dep|name e|]; cbn [fmap list_fmap cjs_exec exec_stmts].
  - specialize (Hrq dep s). rewrite <- Hrq.
    destruct (rq' dep s) as [[r s'|e s'|] tr]; simpl; [|done|done].
    specialize (IH (<[x := VRef r]> env) s').
    by destruct (cjs_exec rq' me self (CStmt <$> rest) _ s') as [o tr'].
  - destruct (eval env (heap s) e); [|done]. apply IH.
  - done.
Qed.

Lemma cjs_require_lift (fuel : nat) :
  ∀ id s, (cjs_require (lift_modules modules) fuel id s).1
          = __webpack_require__ modules fuel id s.
Proof.
  induction fuel as [|n IH]; intros id s.
  - simpl. by destruct (installedModules s !! id).
  - destruct (installedModules s !! id) as [m|] eqn:Hid.
    + by rewrite (cjs_require_hit _ _ _ _ _ Hid), (require_hit _ _ _ _ _ Hid).
    + rewrite (cjs_require_miss _ _ _ _ Hid), (require_miss _ _ _ _ Hid).
      unfold cjs_load, load_module, lift_modules. rewrite lookup_fmap.
      destruct (modules !! id) as [body|]; simpl; [|done].
      pose proof (cjs_exec_lift (cjs_require (lift_modules modules) n)
                    (__webpack_require__ modules n) id (length (heap s)) IH
                    body ∅ (mark_executed id (install id s))) as Hex.
      unfold lift_modules in Hex.
      destruct (cjs_exec _ _ _ _ _ _) as [[[] s2|e s2|] tr]; simpl in Hex;
        rewrite <- Hex; simpl; [|done|done].
      destruct (exec_stmts_keeps_own_record modules n id s body ∅ s2 Hid)
        as [(Hr & _)|Hr]; [by rewrite <- Hex| |congruence].
      by rewrite Hr.
Qed.

End Lift.


